(** * Minkowski question-mark conjugation of Thompson-group tree maps

    A shallow embedding of [questionmarkconjugation.py]: the truncated
    question-mark function and its inverse, the binary codec
    [to_bin]/[to_float], and the tree map built from a prefix dictionary.

    Numbers.  The Python program computes on floats; this development
    reads every arithmetic operation as the exact operation on rationals
    ([Q], compared with [==]), which is the arithmetic in which the
    recurrences of the question-mark function are stated.  The depth
    argument [n] is a natural number: the program only terminates for
    non-negative depths.

    Errors.  A Python call either returns a value or raises.  The three
    exceptions the core can raise are kept apart from the returned
    [None] of a function that falls off its end. *)

From Stdlib Require Import QArith Qabs Qpower ZArith Lia Lqa List
  String Ascii Bool.
Import ListNotations.

Local Open Scope Q_scope.

(** ** Outcomes of a Python call *)

Inductive exn : Type :=
| ZeroDivisionError
| ValueError
| KeyError.

Inductive outcome (A : Type) : Type :=
| Ok (a : A)
| Raised (e : exn).

Arguments Ok {A} a.
Arguments Raised {A} e.

Definition bind {A B : Type} (m : outcome A) (k : A -> outcome B) : outcome B :=
  match m with
  | Ok a => k a
  | Raised e => Raised e
  end.

Notation "x <- m ;; k" := (bind m (fun x => k))
  (at level 61, m at next level, right associativity).

(** [a / b] on Python numbers: raises on a zero divisor. *)
Definition pydiv (a b : Q) : outcome Q :=
  if Qeq_bool b 0 then Raised ZeroDivisionError else Ok (a / b).

(** [returns m P]: the call returns normally, with a value satisfying [P]. *)
Definition returns {A : Type} (m : outcome A) (P : A -> Prop) : Prop :=
  exists a, m = Ok a /\ P a.

(** ** The question-mark function and its inverse *)

(** The test [x == 0 or n == 0] is split over the [match] on the depth
    and the comparison of [x]; both of its branches return [x]. *)

Fixpoint question (x : Q) (n : nat) : outcome Q :=
  match n with
  | O => Ok x
  | S n' =>
      if Qeq_bool x 0 then Ok x
      else if Qle_bool (1 # 2) x then
        r <- pydiv 1 x ;;
        y <- question (2 - r) n' ;;
        pydiv (y + 1) 2
      else
        r <- pydiv 1 (1 - x) ;;
        y <- question (r - 1) n' ;;
        pydiv y 2
  end.

Fixpoint invquestion (x : Q) (n : nat) : outcome Q :=
  match n with
  | O => Ok x
  | S n' =>
      if Qeq_bool x 0 then Ok x
      else if Qle_bool (1 # 2) x then
        y <- invquestion (2 * x - 1) n' ;;
        pydiv 1 (2 - y)
      else
        y <- invquestion (2 * x) n' ;;
        pydiv y (1 + y)
  end.

(** ** Binary codec *)

Fixpoint to_bin (x : Q) (n : nat) : string :=
  match n with
  | O => EmptyString
  | S n' =>
      if Qle_bool (1 # 2) x
      then String "1" (to_bin (2 * x - 1) n')
      else String "0" (to_bin (2 * x) n')
  end.

(** [int(c)] on a one-character string: the decimal digits convert, any
    other ASCII character raises [ValueError]. *)
Definition int_of_char (c : ascii) : outcome Q :=
  let k := nat_of_ascii c in
  if (48 <=? k)%nat && (k <=? 57)%nat
  then Ok (inject_Z (Z.of_nat (k - 48)))
  else Raised ValueError.

Fixpoint to_float (s : string) : outcome Q :=
  match s with
  | EmptyString => Ok 0
  | String c rest =>
      d <- int_of_char c ;;
      v <- to_float rest ;;
      pydiv (d + v) 2
  end.

(** ** Tree maps *)

(** A Python [dict] from strings to strings, in insertion order. *)
Definition dict : Type := list (string * string).

Definition keys (sigma : dict) : list string := map fst sigma.

(** [sigma[k]] *)
Fixpoint dict_get (sigma : dict) (k : string) : outcome string :=
  match sigma with
  | [] => Raised KeyError
  | (a, b) :: rest => if String.eqb a k then Ok b else dict_get rest k
  end.

(** [max] of an iterable: raises on an empty one. *)
Definition py_max (l : list nat) : outcome nat :=
  match l with
  | [] => Raised ValueError
  | a :: rest => Ok (fold_left Nat.max rest a)
  end.

(** [s[:k]] *)
Definition slice_to (k : nat) (s : string) : string := substring 0 k s.

(** [2**k] and [2**(-k)] for a length [k]. *)
Definition pow2 (z : Z) : Q := 2 ^ z.

(** The [for] loop of [f]: [ks] is what remains of the keys of [sigma].
    Falling off the end of the loop returns [None]. *)
Fixpoint scan (sigma : dict) (x : Q) (str : string) (ks : list string)
  : outcome (option Q) :=
  match ks with
  | [] => Ok None
  | string_0 :: ks' =>
      if String.eqb (slice_to (String.length string_0) str) string_0 then
        fa <- to_float string_0 ;;
        let y := (x - fa) * pow2 (Z.of_nat (String.length string_0)) in
        b <- dict_get sigma string_0 ;;
        fb <- to_float b ;;
        Ok (Some (fb + y * pow2 (- Z.of_nat (String.length b))))
      else scan sigma x str ks'
  end.

Definition treemap (sigma : dict) (x : Q) : outcome (option Q) :=
  n <- py_max (map String.length (keys sigma)) ;;
  scan sigma x (to_bin x n) (keys sigma).

(** The two dictionaries of the main routine. *)
Definition sigma1 : dict :=
  [("00", "0"); ("01", "10"); ("1", "11")]%string.

Definition sigma2 : dict :=
  [("000", "00"); ("001", "010"); ("01", "011"); ("1", "1")]%string.

(** ** The conjugation of the main routine *)

(** Exceptions of the main routine: those of the core, and the
    [TypeError] of comparing [None] with a number. *)
Inductive main_exn : Type :=
| Core (e : exn)
| TypeError.

(** [invquestion(v, n)] on what a tree map returned.  On [None] the test
    [x == 0 or n == 0] holds only at depth [0], where [None] is handed
    back; at any other depth [None >= 1/2] raises. *)
Definition invquestion_of (v : option Q) (n : nat) : main_exn + option Q :=
  match v with
  | Some z =>
      match invquestion z n with
      | Ok w => inr (Some w)
      | Raised e => inl (Core e)
      end
  | None =>
      match n with
      | O => inr None
      | S _ => inl TypeError
      end
  end.

(** One point of [npinvq(npf(npq(x)))]: [invq(f(q(x)))] with
    [q = question(., m)], [invq = invquestion(., m)], [f = treemap(sigma)]. *)
Definition conjugate (sigma : dict) (m : nat) (x : Q) : main_exn + option Q :=
  match question x m with
  | Raised e => inl (Core e)
  | Ok y =>
      match treemap sigma y with
      | Raised e => inl (Core e)
      | Ok v => invquestion_of v m
      end
  end.

(** ** Vocabulary of the statements *)

(** Binary strings: every character is ['0'] or ['1']. *)
Definition is_bit (c : ascii) : bool :=
  (Ascii.eqb c "0" || Ascii.eqb c "1")%bool.

Fixpoint is_binary (s : string) : bool :=
  match s with
  | EmptyString => true
  | String c rest => is_bit c && is_binary rest
  end.

(** All binary strings of length [n]. *)
Fixpoint all_bin (n : nat) : list string :=
  match n with
  | O => [EmptyString]
  | S n' => map (String "0") (all_bin n') ++ map (String "1") (all_bin n')
  end.

(** A complete prefix code: binary words such that every binary string
    long enough has exactly one of them as a prefix. *)
Definition prefix_code (l : list string) : bool :=
  forallb is_binary l &&
  forallb (fun s => Nat.eqb (List.length (filter (fun k => prefix k s) l)) 1)
          (all_bin (list_max (map String.length l))).

(** A prefix dictionary: sources and targets are complete prefix codes. *)
Definition prefix_dictionary (sigma : dict) : bool :=
  prefix_code (keys sigma) && prefix_code (map snd sigma).

(** [a] is the first of [ks], in order, that is a prefix of [s]. *)
Definition first_match (ks : list string) (s a : string) : Prop :=
  exists pre post,
    ks = pre ++ a :: post /\
    (forall k, In k pre -> prefix k s = false) /\
    prefix a s = true.

(** The greatest source-prefix length of a non-empty dictionary. *)
Definition max_len (sigma : dict) : nat :=
  list_max (map String.length (keys sigma)).



(** The string made of [n] copies of [c]. *)
Fixpoint repeat_char (c : ascii) (n : nat) : string :=
  match n with
  | O => EmptyString
  | S n' => String c (repeat_char c n')
  end.

(** * Properties *)

(** ** Outcomes and division *)

(** Equality of outcomes up to the equality of rationals. *)
Definition oeq (m m' : outcome Q) : Prop :=
  match m, m' with
  | Ok a, Ok a' => a == a'
  | Raised e, Raised e' => e = e'
  | _, _ => False
  end.

Lemma oeq_bind (m m' : outcome Q) (k k' : Q -> outcome Q) :
  oeq m m' ->
  (forall a a', a == a' -> oeq (k a) (k' a')) ->
  oeq (bind m k) (bind m' k').
Proof.
  destruct m as [a|e], m' as [a'|e']; simpl; intros H Hk;
    try contradiction; auto.
Qed.

Lemma Qeq_bool_proper (a a' b b' : Q) :
  a == a' -> b == b' -> Qeq_bool a b = Qeq_bool a' b'.
Proof.
  intros Ha Hb. apply eq_true_iff_eq.
  rewrite !Qeq_bool_iff, Ha, Hb. reflexivity.
Qed.

Lemma Qle_bool_proper (a a' b b' : Q) :
  a == a' -> b == b' -> Qle_bool a b = Qle_bool a' b'.
Proof.
  intros Ha Hb. apply eq_true_iff_eq.
  rewrite !Qle_bool_iff, Ha, Hb. reflexivity.
Qed.

Lemma pydiv_proper (a a' b b' : Q) :
  a == a' -> b == b' -> oeq (pydiv a b) (pydiv a' b').
Proof.
  intros Ha Hb. unfold pydiv.
  rewrite (Qeq_bool_proper b b' 0 0 Hb (Qeq_refl 0)).
  destruct (Qeq_bool b' 0); simpl; [reflexivity | now rewrite Ha, Hb].
Qed.

Lemma pydiv_ok (a b : Q) : ~ b == 0 -> pydiv a b = Ok (a / b).
Proof.
  intros Hb. unfold pydiv.
  destruct (Qeq_bool b 0) eqn:E; [| reflexivity].
  apply Qeq_bool_iff in E. contradiction.
Qed.

Lemma pydiv_zero (a b : Q) : b == 0 -> pydiv a b = Raised ZeroDivisionError.
Proof.
  intros Hb. unfold pydiv.
  now rewrite (proj2 (Qeq_bool_iff b 0) Hb).
Qed.

Lemma Qeq_bool_false (a b : Q) : ~ a == b -> Qeq_bool a b = false.
Proof.
  intros H. destruct (Qeq_bool a b) eqn:E; [| reflexivity].
  apply Qeq_bool_iff in E. contradiction.
Qed.

Lemma Qle_bool_true (a b : Q) : a <= b -> Qle_bool a b = true.
Proof. apply Qle_bool_iff. Qed.

Lemma Qle_bool_false (a b : Q) : b < a -> Qle_bool a b = false.
Proof.
  intros H. destruct (Qle_bool a b) eqn:E; [| reflexivity].
  apply Qle_bool_iff in E. lra.
Qed.

(** ** One step of each recursion *)

Lemma question_zero (x : Q) (n : nat) : x == 0 -> question x n = Ok x.
Proof.
  intros Hx. destruct n; simpl; [reflexivity |].
  now rewrite (proj2 (Qeq_bool_iff x 0) Hx).
Qed.

Lemma question_hi (x : Q) (n : nat) :
  1 # 2 <= x ->
  question x (S n) = y <- question (2 - 1 / x) n ;; Ok ((y + 1) / 2).
Proof.
  intros Hx. simpl.
  rewrite Qeq_bool_false by lra.
  rewrite Qle_bool_true by assumption.
  rewrite pydiv_ok by lra. reflexivity.
Qed.

Lemma question_lo (x : Q) (n : nat) :
  ~ x == 0 -> x < 1 # 2 ->
  question x (S n) = y <- question (1 / (1 - x) - 1) n ;; Ok (y / 2).
Proof.
  intros H0 Hx. simpl.
  rewrite Qeq_bool_false by assumption.
  rewrite Qle_bool_false by assumption.
  rewrite pydiv_ok by lra. reflexivity.
Qed.

Lemma invquestion_zero (x : Q) (n : nat) : x == 0 -> invquestion x n = Ok x.
Proof.
  intros Hx. destruct n; simpl; [reflexivity |].
  now rewrite (proj2 (Qeq_bool_iff x 0) Hx).
Qed.

Lemma invquestion_hi (x : Q) (n : nat) :
  1 # 2 <= x ->
  invquestion x (S n) = y <- invquestion (2 * x - 1) n ;; pydiv 1 (2 - y).
Proof.
  intros Hx. simpl.
  rewrite Qeq_bool_false by lra.
  now rewrite Qle_bool_true by assumption.
Qed.

Lemma invquestion_lo (x : Q) (n : nat) :
  ~ x == 0 -> x < 1 # 2 ->
  invquestion x (S n) = y <- invquestion (2 * x) n ;; pydiv y (1 + y).
Proof.
  intros H0 Hx. simpl.
  rewrite Qeq_bool_false by assumption.
  now rewrite Qle_bool_false by assumption.
Qed.

(** Both functions respect the equality of rationals. *)
Lemma question_proper (n : nat) (x x' : Q) :
  x == x' -> oeq (question x n) (question x' n).
Proof.
  revert x x'. induction n as [|n IH]; intros x x' Hx; simpl; [exact Hx |].
  rewrite (Qeq_bool_proper x x' 0 0 Hx (Qeq_refl 0)).
  rewrite (Qle_bool_proper (1 # 2) (1 # 2) x x' (Qeq_refl _) Hx).
  destruct (Qeq_bool x' 0); [exact Hx |].
  destruct (Qle_bool (1 # 2) x').
  - apply oeq_bind; [apply pydiv_proper; [reflexivity | exact Hx] |].
    intros r r' Hr. apply oeq_bind; [apply IH; now rewrite Hr |].
    intros y y' Hy. apply pydiv_proper; [now rewrite Hy | reflexivity].
  - apply oeq_bind; [apply pydiv_proper; [reflexivity | now rewrite Hx] |].
    intros r r' Hr. apply oeq_bind; [apply IH; now rewrite Hr |].
    intros y y' Hy. apply pydiv_proper; [exact Hy | reflexivity].
Qed.

Lemma invquestion_proper (n : nat) (x x' : Q) :
  x == x' -> oeq (invquestion x n) (invquestion x' n).
Proof.
  revert x x'. induction n as [|n IH]; intros x x' Hx; simpl; [exact Hx |].
  rewrite (Qeq_bool_proper x x' 0 0 Hx (Qeq_refl 0)).
  rewrite (Qle_bool_proper (1 # 2) (1 # 2) x x' (Qeq_refl _) Hx).
  destruct (Qeq_bool x' 0); [exact Hx |].
  destruct (Qle_bool (1 # 2) x').
  - apply oeq_bind; [apply IH; now rewrite Hx |].
    intros y y' Hy. apply pydiv_proper; [reflexivity | now rewrite Hy].
  - apply oeq_bind; [apply IH; now rewrite Hx |].
    intros y y' Hy. apply pydiv_proper; [exact Hy | now rewrite Hy].
Qed.

(** Halving, in the form linear arithmetic understands. *)
Lemma half_mul (y : Q) : y / 2 == y * (1 # 2).
Proof. reflexivity. Qed.

Ltac qlin := cbv beta; rewrite ?half_mul in *; lra.

(** ** Arguments of the recursive calls stay in the unit interval *)

Lemma recip_half_one (x : Q) : 1 # 2 <= x <= 1 -> 1 <= 1 / x <= 2.
Proof.
  intros [Hl Hu]. split.
  - apply Qle_shift_div_l; lra.
  - apply Qle_shift_div_r; lra.
Qed.

Lemma question_arg_hi (x : Q) : 1 # 2 <= x <= 1 -> 0 <= 2 - 1 / x <= 1.
Proof.
  intros H. pose proof (recip_half_one x H) as Hr.
  set (r := 1 / x) in *. lra.
Qed.

Lemma question_arg_lo (x : Q) : 0 <= x < 1 # 2 -> 0 <= 1 / (1 - x) - 1 <= 1.
Proof.
  intros H. assert (H1 : 1 # 2 <= 1 - x <= 1) by lra.
  pose proof (recip_half_one _ H1) as Hr.
  set (r := 1 / (1 - x)) in *. lra.
Qed.

Lemma invquestion_res_hi (y : Q) :
  0 <= y <= 1 -> ~ 2 - y == 0 /\ 1 # 2 <= 1 / (2 - y) <= 1.
Proof.
  intros H. split; [lra |]. split.
  - apply Qle_shift_div_l; lra.
  - apply Qle_shift_div_r; lra.
Qed.

Lemma invquestion_res_lo (y : Q) :
  0 <= y <= 1 -> ~ 1 + y == 0 /\ 0 <= y / (1 + y) <= 1 # 2.
Proof.
  intros H. split; [lra |]. split.
  - apply Qle_shift_div_l; lra.
  - apply Qle_shift_div_r; lra.
Qed.

(** The three ways a point of the unit interval enters the recursion. *)
Lemma unit_cases (x : Q) :
  0 <= x <= 1 -> x == 0 \/ (~ x == 0 /\ 0 <= x < 1 # 2) \/ 1 # 2 <= x <= 1.
Proof.
  intros H. destruct (Qeq_dec x 0) as [E|E]; [now left |].
  destruct (Qlt_le_dec x (1 # 2)); [right; left | right; right]; lra.
Qed.

Lemma question_unit (n : nat) (x : Q) :
  0 <= x <= 1 -> returns (question x n) (fun y => 0 <= y <= 1).
Proof.
  revert x. induction n as [|n IH]; intros x Hx.
  - exists x. now split.
  - destruct (unit_cases x Hx) as [E | [[E Hlo] | Hhi]].
    + rewrite question_zero by assumption. exists x. now split.
    + rewrite question_lo by (assumption || lra).
      destruct (IH _ (question_arg_lo x Hlo)) as [y [-> Hy]]. simpl.
      exists (y / 2). split; [reflexivity | qlin].
    + rewrite question_hi by lra.
      destruct (IH _ (question_arg_hi x Hhi)) as [y [-> Hy]]. simpl.
      exists ((y + 1) / 2). split; [reflexivity | qlin].
Qed.

Lemma invquestion_unit (n : nat) (x : Q) :
  0 <= x <= 1 -> returns (invquestion x n) (fun y => 0 <= y <= 1).
Proof.
  revert x. induction n as [|n IH]; intros x Hx.
  - exists x. now split.
  - destruct (unit_cases x Hx) as [E | [[E Hlo] | Hhi]].
    + rewrite invquestion_zero by assumption. exists x. now split.
    + rewrite invquestion_lo by (assumption || lra).
      destruct (IH (2 * x)) as [y [-> Hy]]; [lra |]. simpl.
      destruct (invquestion_res_lo y Hy) as [Hd Hb].
      rewrite pydiv_ok by assumption.
      exists (y / (1 + y)). split; [reflexivity | qlin].
    + rewrite invquestion_hi by lra.
      destruct (IH (2 * x - 1)) as [y [-> Hy]]; [lra |]. simpl.
      destruct (invquestion_res_hi y Hy) as [Hd Hb].
      rewrite pydiv_ok by assumption.
      exists (1 / (2 - y)). split; [reflexivity | qlin].
Qed.

(** ** Fixed endpoints *)

Lemma question_one (n : nat) (x : Q) :
  x == 1 -> returns (question x n) (fun y => y == 1).
Proof.
  revert x. induction n as [|n IH]; intros x Hx.
  - exists x. now split.
  - rewrite question_hi by lra.
    destruct (IH (2 - 1 / x)) as [y [-> Hy]].
    + rewrite Hx. reflexivity.
    + simpl. exists ((y + 1) / 2). split; [reflexivity | qlin].
Qed.

Lemma invquestion_one (n : nat) (x : Q) :
  x == 1 -> returns (invquestion x n) (fun y => y == 1).
Proof.
  revert x. induction n as [|n IH]; intros x Hx.
  - exists x. now split.
  - rewrite invquestion_hi by lra.
    destruct (IH (2 * x - 1)) as [y [-> Hy]]; [lra |]. simpl.
    rewrite pydiv_ok by lra.
    exists (1 / (2 - y)). split; [reflexivity | cbv beta].
    rewrite Hy. reflexivity.
Qed.

(** ** Symmetry of the truncated question-mark function *)

Lemma question_symm_gen (n : nat) (x x' : Q) :
  0 <= x <= 1 -> x' == 1 - x ->
  exists y y', question x n = Ok y /\ question x' n = Ok y' /\ y' == 1 - y.
Proof.
  revert x x'. induction n as [|n IH]; intros x x' Hx Hx'.
  - exists x, x'. now repeat split.
  - destruct (Qeq_dec x 0) as [E0|E0]; [| destruct (Qeq_dec x 1) as [E1|E1]].
    + (* x = 0, x' = 1 *)
      destruct (question_one (S n) x') as [y' [Ey' Hy']]; [lra |].
      exists x, y'. rewrite question_zero by assumption.
      repeat split; [assumption | lra].
    + (* x = 1, x' = 0 *)
      destruct (question_one (S n) x E1) as [y [Ey Hy]].
      exists y, x'. rewrite (question_zero x') by lra.
      repeat split; [assumption | lra].
    + destruct (Qlt_le_dec x (1 # 2)) as [Hlo|Hhi];
        [| destruct (Qeq_dec x (1 # 2)) as [Eh|Eh]].
      * (* 0 < x < 1/2 < x' *)
        rewrite question_lo by assumption.
        rewrite (question_hi x') by lra.
        destruct (IH (1 / (1 - x) - 1) (2 - 1 / x')) as [y [y' [-> [-> Hy]]]].
        -- apply question_arg_lo. lra.
        -- rewrite Hx'. set (r := 1 / (1 - x)). lra.
        -- simpl. exists (y / 2), ((y' + 1) / 2). repeat split. qlin.
      * (* x = x' = 1/2: both recursive arguments vanish *)
        rewrite question_hi by assumption.
        rewrite (question_hi x') by lra.
        assert (A : 2 - 1 / x == 0) by (rewrite Eh; reflexivity).
        assert (A' : 2 - 1 / x' == 0) by (rewrite Hx', Eh; reflexivity).
        rewrite (question_zero _ n A), (question_zero _ n A'). simpl.
        eexists; eexists. repeat split. rewrite A, A'. reflexivity.
      * (* x' < 1/2 < x < 1 *)
        rewrite question_hi by assumption.
        rewrite (question_lo x') by lra.
        destruct (IH (2 - 1 / x) (1 / (1 - x') - 1)) as [y [y' [-> [-> Hy]]]].
        -- apply question_arg_hi. lra.
        -- assert (R : 1 - x' == x) by lra. rewrite R.
           set (r := 1 / x). lra.
        -- simpl. exists ((y + 1) / 2), (y' / 2). repeat split. qlin.
Qed.

(** ** Successive depths differ by a halving amount *)

Lemma pow2_pos (z : Z) : 0 < pow2 z.
Proof. unfold pow2. apply Qpower_0_lt. reflexivity. Qed.

Lemma pow2_succ (z : Z) : pow2 (z + 1) == 2 * pow2 z.
Proof.
  unfold pow2. rewrite Qpower_plus by discriminate.
  change (2 ^ 1) with 2. ring.
Qed.

Lemma pow2_neg_succ (n : nat) :
  pow2 (- Z.of_nat (S n)) == pow2 (- Z.of_nat n) * (1 # 2).
Proof.
  replace (- Z.of_nat n)%Z with (- Z.of_nat (S n) + 1)%Z by lia.
  rewrite pow2_succ. ring.
Qed.

Lemma question_depth_step (n : nat) (x : Q) :
  0 <= x <= 1 ->
  exists a b, question x (S n) = Ok a /\ question x n = Ok b /\
              Qabs (a - b) <= pow2 (- Z.of_nat n).
Proof.
  revert x. induction n as [|n IH]; intros x Hx.
  - destruct (question_unit 1 x Hx) as [a [Ea Ha]].
    exists a, x. repeat split; [assumption |].
    apply Qabs_Qle_condition. change (pow2 (- Z.of_nat 0)) with 1. lra.
  - destruct (unit_cases x Hx) as [E | [[E Hlo] | Hhi]].
    + rewrite (question_zero x (S (S n))), (question_zero x (S n)) by assumption.
      exists x, x. repeat split.
      apply Qabs_Qle_condition. pose proof (pow2_pos (- Z.of_nat (S n))). lra.
    + rewrite (question_lo x (S n)), (question_lo x n) by (assumption || lra).
      destruct (IH _ (question_arg_lo x Hlo)) as [a [b [-> [-> H]]]]. cbn [bind].
      exists (a / 2), (b / 2). repeat split.
      apply Qabs_Qle_condition in H. apply Qabs_Qle_condition.
      rewrite pow2_neg_succ. qlin.
    + rewrite (question_hi x (S n)), (question_hi x n) by lra.
      destruct (IH _ (question_arg_hi x Hhi)) as [a [b [-> [-> H]]]]. cbn [bind].
      exists ((a + 1) / 2), ((b + 1) / 2). repeat split.
      apply Qabs_Qle_condition in H. apply Qabs_Qle_condition.
      rewrite pow2_neg_succ. qlin.
Qed.

(** The contracted argument [x / (1 + x)] unfolds to [x] in one step. *)
Lemma contracted_arg (x : Q) :
  0 < x < 1 ->
  let u := x / (1 + x) in
  ~ u == 0 /\ 0 <= u < 1 # 2 /\ 1 / (1 - u) - 1 == x.
Proof.
  intros Hx u. assert (Hu : 0 < u < 1 # 2).
  { subst u. split.
    - apply Qlt_shift_div_l; lra.
    - apply Qlt_shift_div_r; lra. }
  repeat split; try lra.
  subst u. field. split; lra.
Qed.

(** ** The binary codec *)

Lemma to_bin_lo (x : Q) (n : nat) :
  x < 1 # 2 -> to_bin x (S n) = String "0" (to_bin (2 * x) n).
Proof. intros H. simpl. now rewrite Qle_bool_false. Qed.

Lemma to_bin_hi (x : Q) (n : nat) :
  1 # 2 <= x -> to_bin x (S n) = String "1" (to_bin (2 * x - 1) n).
Proof. intros H. simpl. now rewrite Qle_bool_true. Qed.

Lemma to_bin_length (x : Q) (n : nat) : String.length (to_bin x n) = n.
Proof.
  revert x. induction n as [|n IH]; intros x; simpl; [reflexivity |].
  destruct (Qle_bool (1 # 2) x); simpl; now rewrite IH.
Qed.

Lemma to_bin_binary (x : Q) (n : nat) : is_binary (to_bin x n) = true.
Proof.
  revert x. induction n as [|n IH]; intros x; simpl; [reflexivity |].
  destruct (Qle_bool (1 # 2) x); simpl; apply IH.
Qed.

Lemma to_float_zero (s : string) :
  to_float (String "0" s) = v <- to_float s ;; Ok ((0 + v) / 2).
Proof. reflexivity. Qed.

Lemma to_float_one (s : string) :
  to_float (String "1" s) = v <- to_float s ;; Ok ((1 + v) / 2).
Proof. reflexivity. Qed.

Lemma is_bit_inv (c : ascii) : is_bit c = true -> c = "0"%char \/ c = "1"%char.
Proof.
  unfold is_bit. intros H. apply orb_true_iff in H.
  destruct H as [H|H]; apply Ascii.eqb_eq in H; auto.
Qed.

(** Decoding a binary string never raises and lands in [[0, 1)]. *)
Lemma to_float_binary (s : string) :
  is_binary s = true -> returns (to_float s) (fun v => 0 <= v < 1).
Proof.
  induction s as [|c s IH]; intros H.
  - exists 0. split; [reflexivity | lra].
  - simpl in H. apply andb_true_iff in H. destruct H as [Hc Hs].
    destruct (IH Hs) as [v [Ev Hv]].
    destruct (is_bit_inv c Hc) as [-> | ->].
    + rewrite to_float_zero, Ev. exists ((0 + v) / 2).
      split; [reflexivity | qlin].
    + rewrite to_float_one, Ev. exists ((1 + v) / 2).
      split; [reflexivity | qlin].
Qed.

Lemma decode_encode_bounds (n : nat) (x : Q) :
  0 <= x <= 1 ->
  returns (to_float (to_bin x n))
          (fun v => x - pow2 (- Z.of_nat n) <= v <= x).
Proof.
  revert x. induction n as [|n IH]; intros x Hx.
  - exists 0. split; [reflexivity |].
    change (pow2 (- Z.of_nat 0)) with 1. lra.
  - pose proof (pow2_neg_succ n) as P.
    destruct (Qlt_le_dec x (1 # 2)) as [Hlo|Hhi].
    + rewrite to_bin_lo by assumption.
      destruct (IH (2 * x)) as [v [Ev Hv]]; [lra |].
      rewrite to_float_zero, Ev. exists ((0 + v) / 2).
      split; [reflexivity | qlin].
    + rewrite to_bin_hi by assumption.
      destruct (IH (2 * x - 1)) as [v [Ev Hv]]; [lra |].
      rewrite to_float_one, Ev. exists ((1 + v) / 2).
      split; [reflexivity | qlin].
Qed.

(** ** The scan of a tree map *)

Lemma slice_is_prefix (a s : string) :
  String.eqb (slice_to (String.length a) s) a = prefix a s.
Proof.
  unfold slice_to. apply eq_true_iff_eq.
  rewrite String.eqb_eq. symmetry. apply prefix_correct.
Qed.

Lemma py_max_nonempty (l : list nat) : l <> [] -> py_max l = Ok (list_max l).
Proof.
  destruct l as [|a rest]; [congruence | intros _]. simpl. f_equal.
  revert a. induction rest as [|b rest IH]; intros a; simpl.
  - now rewrite Nat.max_0_r.
  - rewrite IH. simpl. now rewrite Nat.max_assoc.
Qed.

Lemma treemap_nonempty (sigma : dict) (x : Q) :
  sigma <> [] ->
  treemap sigma x = scan sigma x (to_bin x (max_len sigma)) (keys sigma).
Proof.
  intros H. unfold treemap. rewrite py_max_nonempty; [reflexivity |].
  destruct sigma; [congruence | discriminate].
Qed.

Lemma scan_skip (sigma : dict) (x : Q) (s : string) (pre ks : list string) :
  (forall k, In k pre -> prefix k s = false) ->
  scan sigma x s (pre ++ ks) = scan sigma x s ks.
Proof.
  induction pre as [|k pre IH]; intros H; [reflexivity |].
  simpl. rewrite slice_is_prefix, (H k) by now left.
  apply IH. intros k' Hk'. apply H. now right.
Qed.

Lemma scan_no_match (sigma : dict) (x : Q) (s : string) (ks : list string) :
  (forall k, In k ks -> prefix k s = false) ->
  scan sigma x s ks = Ok None.
Proof.
  intros H. rewrite <- (app_nil_r ks). now rewrite scan_skip.
Qed.

Lemma scan_hit (sigma : dict) (x : Q) (s a b : string) (fa fb : Q)
      (pre post : list string) :
  (forall k, In k pre -> prefix k s = false) ->
  prefix a s = true ->
  to_float a = Ok fa -> dict_get sigma a = Ok b -> to_float b = Ok fb ->
  scan sigma x s (pre ++ a :: post) =
  Ok (Some (fb + (x - fa) * pow2 (Z.of_nat (String.length a))
                 * pow2 (- Z.of_nat (String.length b)))).
Proof.
  intros Hpre Ha Efa Eb Efb. rewrite scan_skip by assumption.
  cbn [scan]. rewrite slice_is_prefix, Ha, Efa. cbn [bind].
  rewrite Eb. cbn [bind]. now rewrite Efb.
Qed.

(** The rule at the first matching key, for any dictionary at all. *)
Lemma treemap_first_match (sigma : dict) (x : Q) (a b : string) (fa fb : Q) :
  first_match (keys sigma) (to_bin x (max_len sigma)) a ->
  to_float a = Ok fa -> dict_get sigma a = Ok b -> to_float b = Ok fb ->
  returns (treemap sigma x)
    (fun r => exists v, r = Some v /\
       v == fb + (x - fa) *
            pow2 (Z.of_nat (String.length a) - Z.of_nat (String.length b))).
Proof.
  intros [pre [post [Ek [Hpre Ha]]]] Efa Eb Efb.
  assert (Hne : sigma <> []).
  { intros ->. destruct pre; discriminate. }
  rewrite (treemap_nonempty sigma x Hne), Ek.
  rewrite (scan_hit sigma x _ a b fa fb pre post) by assumption.
  eexists. split; [reflexivity |]. eexists. split; [reflexivity |].
  unfold Z.sub, pow2. rewrite Qpower_plus by discriminate. ring.
Qed.

(** ** Complete prefix codes always offer a match *)

Lemma all_bin_complete (s : string) :
  is_binary s = true -> In s (all_bin (String.length s)).
Proof.
  induction s as [|c s IH]; intros H; simpl; [now left |].
  simpl in H. apply andb_true_iff in H. destruct H as [Hc Hs].
  apply in_or_app.
  destruct (is_bit_inv c Hc) as [-> | ->]; [left | right];
    apply in_map; auto.
Qed.

Lemma first_true_split {A : Type} (p : A -> bool) (l : list A) :
  existsb p l = true ->
  exists pre a post,
    l = pre ++ a :: post /\ (forall k, In k pre -> p k = false) /\ p a = true.
Proof.
  induction l as [|h l IH]; intros H; [discriminate |].
  destruct (p h) eqn:Eh.
  - exists [], h, l. repeat split; [intros k [] | assumption].
  - simpl in H. rewrite Eh in H. destruct (IH H) as [pre [a [post [E [Hp Ha]]]]].
    exists (h :: pre), a, post. repeat split; [now rewrite E | | assumption].
    intros k [<- | Hk]; auto.
Qed.

Lemma filter_one_exists {A : Type} (p : A -> bool) (l : list A) :
  List.length (filter p l) = 1%nat -> existsb p l = true.
Proof.
  intros H. destruct (filter p l) as [|a r] eqn:E; [discriminate |].
  assert (Ha : In a (filter p l)) by (rewrite E; now left).
  apply filter_In in Ha. apply existsb_exists. now exists a.
Qed.

Lemma prefix_code_match (l : list string) (x : Q) :
  prefix_code l = true ->
  exists a, first_match l (to_bin x (list_max (map String.length l))) a /\
            is_binary a = true.
Proof.
  unfold prefix_code. intros H. apply andb_true_iff in H. destruct H as [Hb Hc].
  set (n := list_max (map String.length l)) in *.
  rewrite forallb_forall in Hb, Hc.
  assert (Hin : In (to_bin x n) (all_bin n)).
  { rewrite <- (to_bin_length x n) at 2.
    apply all_bin_complete, to_bin_binary. }
  specialize (Hc _ Hin). apply Nat.eqb_eq in Hc.
  destruct (first_true_split _ _ (filter_one_exists _ _ Hc))
    as [pre [a [post [E [Hp Ha]]]]].
  exists a. split; [now exists pre, post |].
  apply Hb. rewrite E. apply in_or_app. right. now left.
Qed.

Lemma dict_get_key (sigma : dict) (a : string) :
  In a (keys sigma) ->
  exists b, dict_get sigma a = Ok b /\ In b (map snd sigma).
Proof.
  induction sigma as [|[k v] sigma IH]; intros H; [destruct H |].
  simpl. destruct (String.eqb_spec k a) as [E|E].
  - exists v. split; [reflexivity | now left].
  - destruct H as [H|H]; [simpl in H; congruence |].
    destruct (IH H) as [b [Eb Hb]]. exists b. split; [assumption | now right].
Qed.

(** ** Closed forms of the two example tree maps *)

Ltac split_bit :=
  match goal with
  | |- context [to_bin ?x (S ?n)] =>
      destruct (Qlt_le_dec x (1 # 2));
      [ rewrite (to_bin_lo x n) by assumption
      | rewrite (to_bin_hi x n) by assumption ]
  end.

Ltac eval_at t :=
  let v := eval vm_compute in t in progress change t with v.

(** Evaluates the parts of an unfolded scan that do not depend on [x]. *)
Ltac eval_closed :=
  repeat (cbn [bind];
    match goal with
    | |- context [String.eqb ?a ?b] => eval_at (String.eqb a b)
    | |- context [to_float ?s] => eval_at (to_float s)
    | |- context [dict_get ?d ?k] => eval_at (dict_get d k)
    | |- context [pow2 ?z] => eval_at (pow2 z)
    end).

Ltac pick_piece :=
  first [ left; split; lra
        | right; left; split; lra
        | right; right; left; split; lra
        | right; right; right; split; lra
        | right; right; split; lra ].

Lemma treemap_sigma1_cases (x : Q) :
  0 <= x <= 1 ->
  exists y, treemap sigma1 x = Ok (Some y) /\
    ((x < 1 # 4 /\ y == 2 * x) \/
     (1 # 4 <= x < 1 # 2 /\ y == x + (1 # 4)) \/
     (1 # 2 <= x /\ y == (1 # 2) + x * (1 # 2))).
Proof.
  intros Hx. rewrite treemap_nonempty by discriminate.
  change (max_len sigma1) with 2%nat.
  repeat split_bit; cbn [to_bin].
  all: cbn [scan keys map fst sigma1]; eval_closed.
  all: eexists; (split; [reflexivity |]); pick_piece.
Qed.

Lemma treemap_sigma2_cases (x : Q) :
  0 <= x <= 1 ->
  exists y, treemap sigma2 x = Ok (Some y) /\
    ((x < 1 # 8 /\ y == 2 * x) \/
     (1 # 8 <= x < 1 # 4 /\ y == x + (1 # 8)) \/
     (1 # 4 <= x < 1 # 2 /\ y == (1 # 4) + x * (1 # 2)) \/
     (1 # 2 <= x /\ y == x)).
Proof.
  intros Hx. rewrite treemap_nonempty by discriminate.
  change (max_len sigma2) with 3%nat.
  repeat split_bit; cbn [to_bin].
  all: cbn [scan keys map fst sigma2]; eval_closed.
  all: eexists; (split; [reflexivity |]); pick_piece.
Qed.

(** ** The contraction recurrence, with its sharper bound *)

Lemma contraction_tight_bound (x : Q) (n : nat) :
  0 < x < 1 ->
  exists a b, question (x / (1 + x)) n = Ok a /\ question x n = Ok b /\
              Qabs (a - b / 2) <= pow2 (- Z.of_nat n).
Proof.
  intros Hx. destruct (contracted_arg x Hx) as [Hu0 [Hu Harg]].
  destruct n as [|n].
  - exists (x / (1 + x)), x. repeat split.
    apply Qabs_Qle_condition. change (pow2 (- Z.of_nat 0)) with 1.
    set (u := x / (1 + x)) in *. qlin.
  - rewrite question_lo by (assumption || lra).
    destruct (question_depth_step n x) as [b [c [Eb [Ec H]]]]; [lra |].
    pose proof (question_proper n _ _ Harg) as P.
    rewrite Ec in P.
    destruct (question (1 / (1 - x / (1 + x)) - 1) n) as [c'|e];
      simpl in P; [| contradiction].
    exists (c' / 2), b. cbn [bind]. repeat split; [assumption |].
    apply Qabs_Qle_condition in H. apply Qabs_Qle_condition.
    rewrite pow2_neg_succ. qlin.
Qed.

(** ** Sample evaluations *)

Example sigma1_prefix_dictionary : prefix_dictionary sigma1 = true.
Proof. vm_compute. reflexivity. Qed.

Example sigma2_prefix_dictionary : prefix_dictionary sigma2 = true.
Proof. vm_compute. reflexivity. Qed.

Example treemap_sigma1_at_0 :
  returns (treemap sigma1 0) (fun r => exists v, r = Some v /\ v == 0).
Proof. eexists. split; [vm_compute; reflexivity |]. now eexists. Qed.

Example treemap_sigma1_at_1 :
  returns (treemap sigma1 1) (fun r => exists v, r = Some v /\ v == 1).
Proof. eexists. split; [vm_compute; reflexivity |]. now eexists. Qed.

Example treemap_sigma2_at_half :
  returns (treemap sigma2 (1 # 2))
          (fun r => exists v, r = Some v /\ v == 1 # 2).
Proof. eexists. split; [vm_compute; reflexivity |]. now eexists. Qed.

Example question_third : returns (question (1 # 3) 5) (fun y => y == 1 # 4).
Proof. eexists. split; [vm_compute; reflexivity | reflexivity]. Qed.

Example to_float_non_digit : to_float "0x"%string = Raised ValueError.
Proof. reflexivity. Qed.

(** * The specification's claims *)

(** C1.  For a prefix dictionary [sigma] and [x] in [[0,1]], the tree map
    takes [s = to_bin x maxLen] with [maxLen] the greatest source-prefix
    length, selects the first key [a], in the dictionary's order, that
    is a prefix of [s], and returns
    [to_float (sigma[a]) + (x - to_float a) * 2^(len a - len sigma[a])]. *)
Theorem treemap_selects_first_rule (sigma : dict) (x : Q) :
  prefix_dictionary sigma = true ->
  0 <= x <= 1 ->
  exists a b fa fb r,
    py_max (map String.length (keys sigma)) = Ok (max_len sigma) /\
    first_match (keys sigma) (to_bin x (max_len sigma)) a /\
    dict_get sigma a = Ok b /\
    to_float a = Ok fa /\ to_float b = Ok fb /\
    treemap sigma x = Ok (Some r) /\
    r == fb + (x - fa) *
         pow2 (Z.of_nat (String.length a) - Z.of_nat (String.length b)).
Proof.
  intros Hd _. unfold prefix_dictionary in Hd.
  apply andb_true_iff in Hd. destruct Hd as [Hk Hv].
  destruct (prefix_code_match (keys sigma) x Hk) as [a [Hfm Ha]].
  fold (max_len sigma) in Hfm.
  assert (Hin : In a (keys sigma)).
  { destruct Hfm as [pre [post [E _]]]. rewrite E.
    apply in_or_app. right. now left. }
  destruct (dict_get_key sigma a Hin) as [b [Eb Hb]].
  assert (Hbin : is_binary b = true).
  { unfold prefix_code in Hv. apply andb_true_iff in Hv.
    destruct Hv as [Hv _]. rewrite forallb_forall in Hv. now apply Hv. }
  destruct (to_float_binary a Ha) as [fa [Efa _]].
  destruct (to_float_binary b Hbin) as [fb [Efb _]].
  destruct (treemap_first_match sigma x a b fa fb Hfm Efa Eb Efb)
    as [r' [Er [r [-> Hr]]]].
  exists a, b, fa, fb, r. repeat split; try assumption.
  apply py_max_nonempty. destruct (keys sigma); [destruct Hin | discriminate].
Qed.

Lemma treemap_selects_first_rule_witness :
  exists a b fa fb r,
    py_max (map String.length (keys sigma1)) = Ok (max_len sigma1) /\
    first_match (keys sigma1) (to_bin (1 # 3) (max_len sigma1)) a /\
    dict_get sigma1 a = Ok b /\
    to_float a = Ok fa /\ to_float b = Ok fb /\
    treemap sigma1 (1 # 3) = Ok (Some r) /\
    r == fb + ((1 # 3) - fa) *
         pow2 (Z.of_nat (String.length a) - Z.of_nat (String.length b)).
Proof.
  apply (treemap_selects_first_rule sigma1 (1 # 3)).
  - vm_compute. reflexivity.
  - split; vm_compute; discriminate.
Defined.

(** C2.  For every depth [n] and [x] in [[0,1]], decoding the encoding of
    [x] lies in [[x - 2^-n, x]]: it never overshoots, and undershoots by
    at most [2^-n]. *)
Theorem codec_roundtrip_bounds (x : Q) (n : nat) :
  0 <= x <= 1 ->
  exists v, to_float (to_bin x n) = Ok v /\
            x - pow2 (- Z.of_nat n) <= v <= x.
Proof. intros Hx. exact (decode_encode_bounds n x Hx). Qed.

Lemma codec_roundtrip_bounds_witness :
  exists v, to_float (to_bin (2 # 3) 4) = Ok v /\
            (2 # 3) - pow2 (- Z.of_nat 4) <= v <= 2 # 3.
Proof.
  apply (codec_roundtrip_bounds (2 # 3) 4).
  split; vm_compute; discriminate.
Defined.

(** C3.  For [x] in [[0,1]] and every depth [n], [question x n] and
    [invquestion x n] are in [[0,1]]. *)
Theorem transforms_preserve_unit_interval (x : Q) (n : nat) :
  0 <= x <= 1 ->
  (exists y, question x n = Ok y /\ 0 <= y <= 1) /\
  (exists y, invquestion x n = Ok y /\ 0 <= y <= 1).
Proof.
  intros Hx. split.
  - exact (question_unit n x Hx).
  - exact (invquestion_unit n x Hx).
Qed.

Lemma transforms_preserve_unit_interval_witness :
  (exists y, question (2 # 5) 6 = Ok y /\ 0 <= y <= 1) /\
  (exists y, invquestion (2 # 5) 6 = Ok y /\ 0 <= y <= 1).
Proof.
  apply (transforms_preserve_unit_interval (2 # 5) 6).
  split; vm_compute; discriminate.
Defined.

(** C4.  For [x] in [[0,1]] and every depth [n], neither [question x n] nor
    [invquestion x n] raises: every division met during the recursion has
    a non-zero divisor, so the raising branch of [pydiv] is never taken. *)
Theorem transforms_raise_no_error (x : Q) (n : nat) :
  0 <= x <= 1 ->
  (exists y, question x n = Ok y) /\ (exists y, invquestion x n = Ok y).
Proof.
  intros Hx. split.
  - destruct (question_unit n x Hx) as [y [E _]]. now exists y.
  - destruct (invquestion_unit n x Hx) as [y [E _]]. now exists y.
Qed.

Lemma transforms_raise_no_error_witness :
  (exists y, question (1 # 2) 3 = Ok y) /\
  (exists y, invquestion (1 # 2) 3 = Ok y).
Proof.
  apply (transforms_raise_no_error (1 # 2) 3).
  split; vm_compute; discriminate.
Defined.

(** Outside the unit interval the raising branch is reachable. *)
Example invquestion_outside_raises :
  invquestion (3 # 2) 1 = Raised ZeroDivisionError.
Proof. reflexivity. Qed.

(** C5.  At every depth both transforms fix the two endpoints:
    [question 0 n = 0], [question 1 n = 1], [invquestion 0 n = 0],
    [invquestion 1 n = 1]. *)
Theorem endpoints_fixed (n : nat) :
  question 0 n = Ok 0 /\
  (exists y, question 1 n = Ok y /\ y == 1) /\
  invquestion 0 n = Ok 0 /\
  (exists y, invquestion 1 n = Ok y /\ y == 1).
Proof.
  repeat split.
  - apply question_zero. reflexivity.
  - apply question_one. reflexivity.
  - apply invquestion_zero. reflexivity.
  - apply invquestion_one. reflexivity.
Qed.

(** C6.  For [x] in [[0,1]] and every depth [n],
    [question (1 - x) n = 1 - question x n]: the symmetry recurrence holds
    exactly for the truncated evaluation. *)
Theorem question_symmetry (x : Q) (n : nat) :
  0 <= x <= 1 ->
  exists l r, question (1 - x) n = Ok l /\ question x n = Ok r /\
              l == 1 - r.
Proof.
  intros Hx.
  destruct (question_symm_gen n x (1 - x) Hx (Qeq_refl _))
    as [r [l [Er [El H]]]].
  now exists l, r.
Qed.

Lemma question_symmetry_witness :
  exists l r, question (1 - (1 # 3)) 5 = Ok l /\ question (1 # 3) 5 = Ok r /\
              l == 1 - r.
Proof.
  apply (question_symmetry (1 # 3) 5).
  split; vm_compute; discriminate.
Defined.

(** C7.  For [x] in [(0,1)] and every depth [n],
    [question (x / (1 + x)) n] and [question x n / 2] differ by at most
    [2^-(n-1)]. *)
Theorem question_contraction (x : Q) (n : nat) :
  0 < x < 1 ->
  exists a b, question (x / (1 + x)) n = Ok a /\ question x n = Ok b /\
              Qabs (a - b / 2) <= pow2 (- (Z.of_nat n - 1)).
Proof.
  intros Hx.
  destruct (contraction_tight_bound x n Hx) as [a [b [Ea [Eb H]]]].
  exists a, b. repeat split; try assumption.
  eapply Qle_trans; [exact H |].
  replace (- (Z.of_nat n - 1))%Z with (- Z.of_nat n + 1)%Z by lia.
  rewrite pow2_succ. pose proof (pow2_pos (- Z.of_nat n)). lra.
Qed.

Lemma question_contraction_witness :
  exists a b, question ((3 # 7) / (1 + (3 # 7))) 8 = Ok a /\
              question (3 # 7) 8 = Ok b /\
              Qabs (a - b / 2) <= pow2 (- (Z.of_nat 8 - 1)).
Proof.
  apply (question_contraction (3 # 7) 8).
  split; vm_compute; reflexivity.
Defined.

(** C8.  The tree maps of the two example dictionaries are non-decreasing
    on [[0,1]]. *)
Theorem example_treemaps_monotone (x1 x2 : Q) :
  0 <= x1 -> x1 <= x2 -> x2 <= 1 ->
  (exists y1 y2, treemap sigma1 x1 = Ok (Some y1) /\
                 treemap sigma1 x2 = Ok (Some y2) /\ y1 <= y2) /\
  (exists y1 y2, treemap sigma2 x1 = Ok (Some y1) /\
                 treemap sigma2 x2 = Ok (Some y2) /\ y1 <= y2).
Proof.
  intros H0 H12 H1.
  assert (Hx1 : 0 <= x1 <= 1) by lra.
  assert (Hx2 : 0 <= x2 <= 1) by lra.
  split.
  - destruct (treemap_sigma1_cases x1 Hx1) as [y1 [E1 C1]].
    destruct (treemap_sigma1_cases x2 Hx2) as [y2 [E2 C2]].
    exists y1, y2. repeat split; try assumption.
    destruct C1 as [[? ?] | [[? ?] | [? ?]]];
      destruct C2 as [[? ?] | [[? ?] | [? ?]]]; lra.
  - destruct (treemap_sigma2_cases x1 Hx1) as [y1 [E1 C1]].
    destruct (treemap_sigma2_cases x2 Hx2) as [y2 [E2 C2]].
    exists y1, y2. repeat split; try assumption.
    destruct C1 as [[? ?] | [[? ?] | [[? ?] | [? ?]]]];
      destruct C2 as [[? ?] | [[? ?] | [[? ?] | [? ?]]]]; lra.
Qed.

Lemma example_treemaps_monotone_witness :
  (exists y1 y2, treemap sigma1 (1 # 5) = Ok (Some y1) /\
                 treemap sigma1 (4 # 5) = Ok (Some y2) /\ y1 <= y2) /\
  (exists y1 y2, treemap sigma2 (1 # 5) = Ok (Some y1) /\
                 treemap sigma2 (4 # 5) = Ok (Some y2) /\ y1 <= y2).
Proof.
  apply (example_treemaps_monotone (1 # 5) (4 # 5));
    vm_compute; discriminate.
Defined.

(** C9, as the specification states it, fails on the empty dictionary:
    no key is a prefix of anything, yet the call raises [ValueError]
    (from [max] of an empty iterable) instead of returning [None]. *)
Lemma treemap_empty_dict_raises :
  0 <= 0 <= 1 /\
  (forall k, In k (keys []) -> prefix k (to_bin 0 (max_len [])) = false) /\
  treemap [] 0 = Raised ValueError /\
  treemap [] 0 <> Ok None.
Proof.
  repeat split; try (vm_compute; discriminate).
  intros k [].
Qed.

(** C9, amended.  For a non-empty dictionary, when no key is a prefix
    of [to_bin x maxLen] the tree map returns [None] and does not raise. *)
Theorem treemap_no_match_returns_none (sigma : dict) (x : Q) :
  sigma <> [] ->
  (forall k, In k (keys sigma) ->
             prefix k (to_bin x (max_len sigma)) = false) ->
  treemap sigma x = Ok None.
Proof.
  intros Hne H. rewrite treemap_nonempty by assumption.
  now apply scan_no_match.
Qed.

Lemma treemap_no_match_returns_none_witness :
  treemap [("00", "0")]%string 1 = Ok None.
Proof.
  apply (treemap_no_match_returns_none [("00", "0")]%string 1).
  - discriminate.
  - intros k [<- | []]. vm_compute. reflexivity.
Defined.

(** C10.  For every [x], in the unit interval or not, and every depth [n],
    [to_bin x n] has exactly [n] characters, each ['0'] or ['1']; so the
    string a tree map matches against its keys has length [maxLen]. *)
Theorem to_bin_shape (x : Q) (n : nat) :
  String.length (to_bin x n) = n /\
  is_binary (to_bin x n) = true /\
  (forall sigma m,
      py_max (map String.length (keys sigma)) = Ok m ->
      exists s, treemap sigma x = scan sigma x s (keys sigma) /\
                String.length s = m).
Proof.
  split; [apply to_bin_length |]. split; [apply to_bin_binary |].
  intros sigma m E. exists (to_bin x m).
  split; [| apply to_bin_length].
  unfold treemap. now rewrite E.
Qed.

Lemma to_bin_shape_witness :
  String.length (to_bin (7 # 3) 5) = 5%nat /\
  is_binary (to_bin (7 # 3) 5) = true /\
  exists s, treemap sigma2 (7 # 3) = scan sigma2 (7 # 3) s (keys sigma2) /\
            String.length s = 3%nat.
Proof.
  destruct (to_bin_shape (7 # 3) 5) as [L [B T]].
  split; [exact L |]. split; [exact B |].
  apply (T sigma2 3%nat). vm_compute. reflexivity.
Defined.

(** * Further properties of the code *)

(** ** More on the binary codec *)

Lemma to_bin_proper (n : nat) (x x' : Q) :
  x == x' -> to_bin x n = to_bin x' n.
Proof.
  revert x x'. induction n as [|n IH]; intros x x' Hx; [reflexivity |].
  cbn [to_bin].
  rewrite (Qle_bool_proper (1 # 2) (1 # 2) x x' (Qeq_refl _) Hx).
  destruct (Qle_bool (1 # 2) x'); f_equal; apply IH; now rewrite Hx.
Qed.

Lemma slice_to_zero (s : string) : slice_to 0 s = EmptyString.
Proof. now destruct s. Qed.

Lemma to_bin_slice (n m : nat) (x : Q) :
  (m <= n)%nat -> slice_to m (to_bin x n) = to_bin x m.
Proof.
  revert m x. induction n as [|n IH]; intros m x Hm.
  - replace m with 0%nat by lia. reflexivity.
  - destruct m as [|m]; [apply slice_to_zero |].
    cbn [to_bin]. destruct (Qle_bool (1 # 2) x);
      unfold slice_to in *; cbn [substring]; f_equal; apply IH; lia.
Qed.

(** A prefix of an encoding is the encoding at the prefix's own depth. *)
Lemma prefix_to_bin (a : string) (x : Q) (n : nat) :
  prefix a (to_bin x n) = true -> a = to_bin x (String.length a).
Proof.
  revert x n. induction a as [|c a IH]; intros x n H; [reflexivity |].
  destruct n as [|n]; [discriminate |].
  cbn [to_bin String.length] in *.
  destruct (Qle_bool (1 # 2) x); cbn [prefix] in H;
    match type of H with
    | context [ascii_dec ?u ?v] => destruct (ascii_dec u v) as [->|]
    end; try discriminate; f_equal; eapply IH; eassumption.
Qed.

Lemma to_bin_ones (n : nat) (x : Q) :
  1 <= x -> to_bin x n = repeat_char "1" n.
Proof.
  revert x. induction n as [|n IH]; intros x Hx; [reflexivity |].
  rewrite to_bin_hi by lra. cbn [repeat_char]. f_equal. apply IH. lra.
Qed.

Lemma to_bin_zeros (n : nat) (x : Q) :
  x <= 0 -> to_bin x n = repeat_char "0" n.
Proof.
  revert x. induction n as [|n IH]; intros x Hx; [reflexivity |].
  rewrite to_bin_lo by lra. cbn [repeat_char]. f_equal. apply IH. lra.
Qed.



(** Sharper range of a decoded binary string. *)
Lemma to_float_binary_range (s : string) :
  is_binary s = true ->
  exists v, to_float s = Ok v /\
            0 <= v <= 1 - pow2 (- Z.of_nat (String.length s)).
Proof.
  induction s as [|c s IH]; intros H.
  - exists 0. split; [reflexivity |].
    change (pow2 (- Z.of_nat (String.length ""))) with 1. lra.
  - cbn [is_binary] in H. apply andb_true_iff in H. destruct H as [Hc Hs].
    destruct (IH Hs) as [v [Ev Hv]].
    pose proof (pow2_neg_succ (String.length s)) as P.
    cbn [String.length].
    destruct (is_bit_inv c Hc) as [-> | ->].
    + rewrite to_float_zero, Ev. exists ((0 + v) / 2).
      split; [reflexivity | qlin].
    + rewrite to_float_one, Ev. exists ((1 + v) / 2).
      split; [reflexivity | qlin].
Qed.

Lemma encode_decode_gen (s : string) :
  is_binary s = true ->
  exists v, to_float s = Ok v /\ 0 <= v < 1 /\
            to_bin v (String.length s) = s.
Proof.
  induction s as [|c s IH]; intros H.
  - exists 0. repeat split; lra.
  - cbn [is_binary] in H. apply andb_true_iff in H. destruct H as [Hc Hs].
    destruct (IH Hs) as [v [Ev [Hv Hb]]]. cbn [String.length].
    destruct (is_bit_inv c Hc) as [-> | ->].
    + rewrite to_float_zero, Ev. exists ((0 + v) / 2). cbn [bind].
      split; [reflexivity |]. split; [qlin |].
      rewrite to_bin_lo by qlin. f_equal.
      rewrite <- Hb at 2. apply to_bin_proper. qlin.
    + rewrite to_float_one, Ev. exists ((1 + v) / 2). cbn [bind].
      split; [reflexivity |]. split; [qlin |].
      rewrite to_bin_hi by qlin. f_equal.
      rewrite <- Hb at 2. apply to_bin_proper. qlin.
Qed.

(** ** More on the question-mark function and its inverse *)

Lemma recip_lt (a b : Q) : 0 < a -> a < b -> 1 / b < 1 / a.
Proof.
  intros Ha Hab. apply Qlt_shift_div_r; [lra |].
  setoid_replace (1 / a * b) with (b / a) by (field; lra).
  apply Qlt_shift_div_l; lra.
Qed.

Lemma recip_pos (a : Q) : 0 < a -> 0 < 1 / a.
Proof. intros Ha. apply Qlt_shift_div_l; lra. Qed.

(** The open ends of the interval are kept apart from its endpoints. *)
Lemma question_strict_range (n : nat) (x : Q) :
  0 <= x <= 1 ->
  exists y, question x n = Ok y /\ 0 <= y <= 1 /\
            (0 < x -> 0 < y) /\ (x < 1 -> y < 1).
Proof.
  revert x. induction n as [|n IH]; intros x Hx.
  - exists x. repeat split; tauto.
  - destruct (unit_cases x Hx) as [E | [[E Hlo] | Hhi]].
    + rewrite question_zero by assumption. exists x. repeat split; lra.
    + rewrite question_lo by (assumption || lra).
      pose proof (question_arg_lo x Hlo) as Hu.
      assert (Hu' : 0 < 1 / (1 - x) - 1).
      { assert (1 / 1 < 1 / (1 - x)) by (apply recip_lt; lra).
        change (1 / 1) with 1 in *. lra. }
      destruct (IH _ Hu) as [y [-> [Hy [Hp _]]]]. cbn [bind].
      specialize (Hp Hu').
      exists (y / 2). repeat split; try qlin.
    + rewrite question_hi by lra.
      destruct (IH _ (question_arg_hi x Hhi)) as [y [-> [Hy [_ Hl]]]].
      cbn [bind]. exists ((y + 1) / 2). repeat split; try qlin.
      intros Hx1. assert (Hr : 1 / 1 < 1 / x) by (apply recip_lt; lra).
      change (1 / 1) with 1 in Hr.
      assert (Hy1 : y < 1) by (apply Hl; lra). qlin.
Qed.

Lemma invquestion_strict_range (n : nat) (x : Q) :
  0 <= x <= 1 ->
  exists y, invquestion x n = Ok y /\ 0 <= y <= 1 /\
            (0 < x -> 0 < y) /\ (x < 1 -> y < 1).
Proof.
  revert x. induction n as [|n IH]; intros x Hx.
  - exists x. repeat split; tauto.
  - destruct (unit_cases x Hx) as [E | [[E Hlo] | Hhi]].
    + rewrite invquestion_zero by assumption. exists x. repeat split; lra.
    + rewrite invquestion_lo by (assumption || lra).
      destruct (IH (2 * x)) as [y [-> [Hy [Hp _]]]]; [lra |]. cbn [bind].
      destruct (invquestion_res_lo y Hy) as [Hd Hb].
      rewrite pydiv_ok by assumption.
      assert (Hy0 : 0 < y) by (apply Hp; lra).
      exists (y / (1 + y)). repeat split; try lra.
      intros _. apply Qlt_shift_div_l; lra.
    + rewrite invquestion_hi by lra.
      destruct (IH (2 * x - 1)) as [y [-> [Hy [_ Hl]]]]; [lra |]. cbn [bind].
      destruct (invquestion_res_hi y Hy) as [Hd Hb].
      rewrite pydiv_ok by assumption.
      exists (1 / (2 - y)). repeat split; try lra.
      intros Hx1. assert (Hy1 : y < 1) by (apply Hl; lra).
      apply Qlt_shift_div_r; lra.
Qed.

(** [invquestion] undoes [question], depth for depth. *)
Lemma invquestion_question_gen (n : nat) (x : Q) :
  0 <= x <= 1 ->
  exists y z, question x n = Ok y /\ invquestion y n = Ok z /\ z == x.
Proof.
  revert x. induction n as [|n IH]; intros x Hx.
  - exists x, x. repeat split; reflexivity.
  - destruct (unit_cases x Hx) as [E | [[E Hlo] | Hhi]].
    + exists x, x. rewrite question_zero, invquestion_zero by assumption.
      repeat split; reflexivity.
    + rewrite question_lo by (assumption || lra).
      pose proof (question_arg_lo x Hlo) as Hu.
      set (u := 1 / (1 - x) - 1) in *.
      assert (Hu0 : 0 < u /\ u < 1).
      { subst u. split.
        - assert (1 / 1 < 1 / (1 - x)) by (apply recip_lt; lra).
          change (1 / 1) with 1 in *. lra.
        - assert (1 / (1 - x) < 2); [| lra].
          apply Qlt_shift_div_r; lra. }
      destruct (question_strict_range n u Hu) as [y [Ey [Hy [Hp Hl]]]].
      destruct (IH u Hu) as [y' [z [Ey' [Ez Hz]]]].
      rewrite Ey in Ey'. injection Ey' as <-.
      rewrite Ey. cbn [bind].
      assert (Hy0 : 0 < y < 1) by (split; [apply Hp | apply Hl]; lra).
      assert (P : oeq (invquestion (2 * (y / 2)) n) (invquestion y n)).
      { apply invquestion_proper. qlin. }
      rewrite Ez in P.
      exists (y / 2). rewrite invquestion_lo by qlin.
      destruct (invquestion (2 * (y / 2)) n) as [z'|e];
        simpl in P; [| contradiction].
      cbn [bind]. rewrite pydiv_ok by lra.
      exists (z' / (1 + z')). repeat split.
      rewrite P, Hz. subst u. field. lra.
    + rewrite question_hi by lra.
      pose proof (question_arg_hi x Hhi) as Hu.
      set (u := 2 - 1 / x) in *.
      destruct (question_unit n u Hu) as [y [Ey Hy]].
      destruct (IH u Hu) as [y' [z [Ey' [Ez Hz]]]].
      rewrite Ey in Ey'. injection Ey' as <-.
      rewrite Ey. cbn [bind].
      assert (P : oeq (invquestion (2 * ((y + 1) / 2) - 1) n)
                      (invquestion y n)).
      { apply invquestion_proper. qlin. }
      rewrite Ez in P.
      exists ((y + 1) / 2). rewrite invquestion_hi by qlin.
      destruct (invquestion (2 * ((y + 1) / 2) - 1) n) as [z'|e];
        simpl in P; [| contradiction].
      cbn [bind].
      assert (Hr : 0 < 1 / x) by (apply recip_pos; lra).
      assert (Hz' : 2 - z' == 1 / x) by (rewrite P, Hz; subst u; ring).
      rewrite pydiv_ok by lra.
      exists (1 / (2 - z')). repeat split.
      rewrite Hz'. field. lra.
Qed.

(** [question] undoes [invquestion], depth for depth. *)
Lemma question_invquestion_gen (n : nat) (x : Q) :
  0 <= x <= 1 ->
  exists y z, invquestion x n = Ok y /\ question y n = Ok z /\ z == x.
Proof.
  revert x. induction n as [|n IH]; intros x Hx.
  - exists x, x. repeat split; reflexivity.
  - destruct (unit_cases x Hx) as [E | [[E Hlo] | Hhi]].
    + exists x, x. rewrite question_zero, invquestion_zero by assumption.
      repeat split; reflexivity.
    + rewrite invquestion_lo by (assumption || lra).
      assert (Hu : 0 <= 2 * x <= 1) by lra.
      destruct (invquestion_strict_range n _ Hu) as [y [Ey [Hy [Hp Hl]]]].
      destruct (IH _ Hu) as [y' [z [Ey' [Ez Hz]]]].
      rewrite Ey in Ey'. injection Ey' as <-.
      rewrite Ey. cbn [bind].
      assert (Hy0 : 0 < y < 1) by (split; [apply Hp | apply Hl]; lra).
      rewrite pydiv_ok by lra.
      assert (Hw : 0 < y / (1 + y) < 1 # 2).
      { split; [apply Qlt_shift_div_l | apply Qlt_shift_div_r]; lra. }
      assert (P : oeq (question (1 / (1 - y / (1 + y)) - 1) n)
                      (question y n)).
      { apply question_proper. field. split; lra. }
      rewrite Ez in P.
      exists (y / (1 + y)). rewrite question_lo by lra.
      destruct (question (1 / (1 - y / (1 + y)) - 1) n) as [z'|e];
        simpl in P; [| contradiction].
      cbn [bind]. exists (z' / 2). repeat split.
      rewrite P, Hz. qlin.
    + rewrite invquestion_hi by lra.
      assert (Hu : 0 <= 2 * x - 1 <= 1) by lra.
      destruct (invquestion_unit n _ Hu) as [y [Ey Hy]].
      destruct (IH _ Hu) as [y' [z [Ey' [Ez Hz]]]].
      rewrite Ey in Ey'. injection Ey' as <-.
      rewrite Ey. cbn [bind].
      destruct (invquestion_res_hi y Hy) as [Hd Hb].
      rewrite pydiv_ok by assumption.
      assert (P : oeq (question (2 - 1 / (1 / (2 - y))) n) (question y n)).
      { apply question_proper. field. lra. }
      rewrite Ez in P.
      exists (1 / (2 - y)). rewrite question_hi by lra.
      destruct (question (2 - 1 / (1 / (2 - y))) n) as [z'|e];
        simpl in P; [| contradiction].
      cbn [bind]. exists ((z' + 1) / 2). repeat split.
      rewrite P, Hz. qlin.
Qed.



(** [question] never divides by zero, whatever its argument. *)
Lemma question_total (n : nat) (x : Q) : exists y, question x n = Ok y.
Proof.
  revert x. induction n as [|n IH]; intros x; [now exists x |].
  destruct (Qeq_dec x 0) as [E|E].
  - rewrite question_zero by assumption. now exists x.
  - destruct (Qlt_le_dec x (1 # 2)) as [Hlo|Hhi].
    + rewrite question_lo by assumption.
      destruct (IH (1 / (1 - x) - 1)) as [y ->]. cbn [bind]. now eexists.
    + rewrite question_hi by assumption.
      destruct (IH (2 - 1 / x)) as [y ->]. cbn [bind]. now eexists.
Qed.

(** ** More on tree maps *)




(** The argument lies in the dyadic cell named by any prefix of its
    encoding. *)
Lemma source_cell (a : string) (x : Q) (n : nat) :
  0 <= x <= 1 -> prefix a (to_bin x n) = true ->
  exists fa, to_float a = Ok fa /\
             fa <= x <= fa + pow2 (- Z.of_nat (String.length a)).
Proof.
  intros Hx Hp. pose proof (prefix_to_bin a x n Hp) as E.
  destruct (decode_encode_bounds (String.length a) x Hx) as [v [Ev Hv]].
  rewrite <- E in Ev. exists v. split; [assumption | lra].
Qed.

Lemma pow2_cancel (k : nat) :
  pow2 (- Z.of_nat k) * pow2 (Z.of_nat k) == 1.
Proof.
  unfold pow2. rewrite <- Qpower_plus by discriminate.
  replace (- Z.of_nat k + Z.of_nat k)%Z with 0%Z by lia. reflexivity.
Qed.

(** Rescaling a point of the source cell lands in the target cell. *)
Lemma rescale_into_cell (x fa fb : Q) (la lb : nat) :
  fa <= x <= fa + pow2 (- Z.of_nat la) ->
  fb <= fb + (x - fa) * pow2 (Z.of_nat la) * pow2 (- Z.of_nat lb)
     <= fb + pow2 (- Z.of_nat lb).
Proof.
  intros Hx. pose proof (pow2_cancel la) as C.
  pose proof (pow2_pos (Z.of_nat la)) as Pa.
  pose proof (pow2_pos (- Z.of_nat lb)) as Pb.
  set (p := pow2 (Z.of_nat la)) in *.
  set (q := pow2 (- Z.of_nat lb)) in *.
  set (h := pow2 (- Z.of_nat la)) in *.
  assert (Ht : 0 <= (x - fa) * p <= 1).
  { split.
    - apply Qmult_le_0_compat; lra.
    - rewrite <- C. apply Qmult_le_compat_r; lra. }
  set (t := (x - fa) * p) in *.
  assert (0 <= t * q) by (apply Qmult_le_0_compat; lra).
  assert (t * q <= 1 * q) by (apply Qmult_le_compat_r; lra).
  lra.
Qed.

(** What a prefix dictionary offers at a point: the selected rule, with
    both of its words binary. *)
Lemma prefix_dictionary_rule (sigma : dict) (x : Q) :
  prefix_dictionary sigma = true ->
  exists a b,
    first_match (keys sigma) (to_bin x (max_len sigma)) a /\
    dict_get sigma a = Ok b /\ is_binary a = true /\ is_binary b = true.
Proof.
  intros Hd. unfold prefix_dictionary in Hd.
  apply andb_true_iff in Hd. destruct Hd as [Hk Hv].
  destruct (prefix_code_match (keys sigma) x Hk) as [a [Hfm Ha]].
  fold (max_len sigma) in Hfm.
  assert (Hin : In a (keys sigma)).
  { destruct Hfm as [pre [post [E _]]]. rewrite E.
    apply in_or_app. right. now left. }
  destruct (dict_get_key sigma a Hin) as [b [Eb Hb]].
  exists a, b. repeat split; try assumption.
  unfold prefix_code in Hv. apply andb_true_iff in Hv.
  destruct Hv as [Hv _]. rewrite forallb_forall in Hv. now apply Hv.
Qed.

Lemma treemap_cells_gen (sigma : dict) (x : Q) :
  prefix_dictionary sigma = true -> 0 <= x <= 1 ->
  exists a b fa fb r,
    first_match (keys sigma) (to_bin x (max_len sigma)) a /\
    dict_get sigma a = Ok b /\
    to_float a = Ok fa /\ to_float b = Ok fb /\
    treemap sigma x = Ok (Some r) /\
    fa <= x <= fa + pow2 (- Z.of_nat (String.length a)) /\
    fb <= r <= fb + pow2 (- Z.of_nat (String.length b)) /\
    0 <= r <= 1.
Proof.
  intros Hd Hx.
  destruct (prefix_dictionary_rule sigma x Hd) as [a [b [Hfm [Eb [Ha Hb]]]]].
  assert (Hfm' := Hfm). destruct Hfm' as [pre [post [Ek [Hpre Hp]]]].
  destruct (source_cell a x _ Hx Hp) as [fa [Efa Hfa]].
  destruct (to_float_binary_range b Hb) as [fb [Efb Hfb]].
  assert (Hne : sigma <> []).
  { intros ->. destruct pre; discriminate. }
  pose proof (rescale_into_cell x fa fb (String.length a) (String.length b)
                Hfa) as Hr.
  exists a, b, fa, fb.
  exists (fb + (x - fa) * pow2 (Z.of_nat (String.length a))
             * pow2 (- Z.of_nat (String.length b))).
  do 4 (split; [assumption |]). split.
  - rewrite (treemap_nonempty sigma x Hne), Ek.
    apply (scan_hit sigma x _ a b fa fb pre post); assumption.
  - split; [exact Hfa |]. split; [exact Hr |]. lra.
Qed.

(** ** The conjugated tree maps *)


Lemma conjugate_steps (sigma : dict) (m : nat) (x y r w : Q) :
  question x m = Ok y -> treemap sigma y = Ok (Some r) ->
  invquestion r m = Ok w ->
  conjugate sigma m x = inr (Some w).
Proof.
  intros Ey Er Ew. unfold conjugate. rewrite Ey, Er.
  cbn [invquestion_of]. now rewrite Ew.
Qed.

Lemma conjugate_unit_gen (sigma : dict) (m : nat) (x : Q) :
  prefix_dictionary sigma = true -> 0 <= x <= 1 ->
  exists w, conjugate sigma m x = inr (Some w) /\ 0 <= w <= 1.
Proof.
  intros Hd Hx.
  destruct (question_unit m x Hx) as [y [Ey Hy]].
  destruct (treemap_cells_gen sigma y Hd Hy)
    as [a [b [fa [fb [r [_ [_ [_ [_ [Er [_ [_ Hr]]]]]]]]]]]].
  destruct (invquestion_unit m r Hr) as [w [Ew Hw]].
  exists w. split; [| assumption].
  eapply conjugate_steps; eassumption.
Qed.


Lemma filter_one_unique {A : Type} (p : A -> bool) (l : list A) (a a' : A) :
  List.length (filter p l) = 1%nat ->
  In a l -> p a = true -> In a' l -> p a' = true -> a = a'.
Proof.
  intros H Ha Hpa Ha' Hpa'.
  assert (Fa : In a (filter p l)) by (apply filter_In; now split).
  assert (Fa' : In a' (filter p l)) by (apply filter_In; now split).
  destruct (filter p l) as [|c [|d r]]; try discriminate.
  destruct Fa as [<- | []]. now destruct Fa' as [<- | []].
Qed.

(** In a complete prefix code the matching key is the only one. *)
Lemma prefix_code_unique (l : list string) (x : Q) (a a' : string) :
  prefix_code l = true ->
  In a l -> prefix a (to_bin x (list_max (map String.length l))) = true ->
  In a' l -> prefix a' (to_bin x (list_max (map String.length l))) = true ->
  a = a'.
Proof.
  unfold prefix_code. intros H Ha Hpa Ha' Hpa'.
  apply andb_true_iff in H. destruct H as [_ Hc].
  rewrite forallb_forall in Hc.
  set (n := list_max (map String.length l)) in *.
  assert (Hin : In (to_bin x n) (all_bin n)).
  { rewrite <- (to_bin_length x n) at 2.
    apply all_bin_complete, to_bin_binary. }
  specialize (Hc _ Hin). apply Nat.eqb_eq in Hc.
  exact (filter_one_unique _ l a a' Hc Ha Hpa Ha' Hpa').
Qed.

(** * Further results *)


(** X2.  Encoding undoes decoding: a binary string [s] decodes to a value
    of [[0, 1 - 2^-len s]] whose encoding at depth [len s] is [s]. *)
Theorem encode_undoes_decode (s : string) :
  is_binary s = true ->
  exists v, to_float s = Ok v /\
            0 <= v <= 1 - pow2 (- Z.of_nat (String.length s)) /\
            to_bin v (String.length s) = s.
Proof.
  intros H.
  destruct (encode_decode_gen s H) as [v [Ev [_ Hb]]].
  destruct (to_float_binary_range s H) as [v' [Ev' Hv']].
  rewrite Ev in Ev'. injection Ev' as <-.
  exists v. now repeat split.
Qed.

Lemma encode_undoes_decode_witness :
  exists v, to_float "0110" = Ok v /\
            0 <= v <= 1 - pow2 (- Z.of_nat (String.length "0110")) /\
            to_bin v (String.length "0110") = "0110"%string.
Proof. apply (encode_undoes_decode "0110"). reflexivity. Defined.

(** X3.  The first [m] digits of a deeper encoding are the encoding at
    depth [m]: [to_bin x n][:m] = [to_bin x m] for [m <= n]. *)
Theorem to_bin_truncates (x : Q) (m n : nat) :
  (m <= n)%nat ->
  slice_to m (to_bin x n) = to_bin x m /\
  prefix (to_bin x m) (to_bin x n) = true.
Proof.
  intros H. pose proof (to_bin_slice n m x H) as T.
  split; [exact T |].
  rewrite <- slice_is_prefix, to_bin_length, T. apply String.eqb_refl.
Qed.

Lemma to_bin_truncates_witness :
  slice_to 2 (to_bin (5 # 7) 6) = to_bin (5 # 7) 2 /\
  prefix (to_bin (5 # 7) 2) (to_bin (5 # 7) 6) = true.
Proof. apply (to_bin_truncates (5 # 7) 2 6). lia. Defined.

(** X4.  Outside the unit interval the encoding saturates: all ['1'] from
    [1] upwards, all ['0'] from [0] downwards. *)
Theorem to_bin_saturates (x : Q) (n : nat) :
  (1 <= x -> to_bin x n = repeat_char "1" n) /\
  (x <= 0 -> to_bin x n = repeat_char "0" n).
Proof. split; [apply to_bin_ones | apply to_bin_zeros]. Qed.

Lemma to_bin_saturates_witness :
  to_bin (7 # 2) 4 = repeat_char "1" 4 /\
  to_bin (- (1 # 3)) 4 = repeat_char "0" 4.
Proof.
  split.
  - apply (proj1 (to_bin_saturates (7 # 2) 4)). vm_compute. discriminate.
  - apply (proj2 (to_bin_saturates (- (1 # 3)) 4)). vm_compute. discriminate.
Defined.

(** X5.  On [[0,1]], [invquestion] at depth [n] undoes [question] at
    depth [n], exactly. *)
Theorem invquestion_undoes_question (x : Q) (n : nat) :
  0 <= x <= 1 ->
  exists y z, question x n = Ok y /\ invquestion y n = Ok z /\ z == x.
Proof. apply invquestion_question_gen. Qed.

Lemma invquestion_undoes_question_witness :
  exists y z, question (3 # 7) 6 = Ok y /\ invquestion y 6 = Ok z /\
              z == 3 # 7.
Proof.
  apply (invquestion_undoes_question (3 # 7) 6).
  split; vm_compute; discriminate.
Defined.

(** X6.  On [[0,1]], [question] at depth [n] undoes [invquestion] at
    depth [n], exactly. *)
Theorem question_undoes_invquestion (x : Q) (n : nat) :
  0 <= x <= 1 ->
  exists y z, invquestion x n = Ok y /\ question y n = Ok z /\ z == x.
Proof. apply question_invquestion_gen. Qed.

Lemma question_undoes_invquestion_witness :
  exists y z, invquestion (5 # 8) 6 = Ok y /\ question y 6 = Ok z /\
              z == 5 # 8.
Proof.
  apply (question_undoes_invquestion (5 # 8) 6).
  split; vm_compute; discriminate.
Defined.





(** X9.  [question] raises on no argument at all, inside the unit
    interval or not: none of its divisors can vanish. *)
Theorem question_never_raises (x : Q) (n : nat) :
  exists y, question x n = Ok y.
Proof. apply question_total. Qed.



(** X11.  For a prefix dictionary and [x] in [[0,1]], [x] lies in the
    dyadic cell of the selected source prefix and the result lies in the
    cell of its target prefix, hence in [[0,1]]. *)
Theorem treemap_maps_cell_to_cell (sigma : dict) (x : Q) :
  prefix_dictionary sigma = true -> 0 <= x <= 1 ->
  exists a b fa fb r,
    first_match (keys sigma) (to_bin x (max_len sigma)) a /\
    dict_get sigma a = Ok b /\
    to_float a = Ok fa /\ to_float b = Ok fb /\
    treemap sigma x = Ok (Some r) /\
    fa <= x <= fa + pow2 (- Z.of_nat (String.length a)) /\
    fb <= r <= fb + pow2 (- Z.of_nat (String.length b)) /\
    0 <= r <= 1.
Proof. apply treemap_cells_gen. Qed.

Lemma treemap_maps_cell_to_cell_witness :
  exists a b fa fb r,
    first_match (keys sigma2) (to_bin (2 # 7) (max_len sigma2)) a /\
    dict_get sigma2 a = Ok b /\
    to_float a = Ok fa /\ to_float b = Ok fb /\
    treemap sigma2 (2 # 7) = Ok (Some r) /\
    fa <= 2 # 7 <= fa + pow2 (- Z.of_nat (String.length a)) /\
    fb <= r <= fb + pow2 (- Z.of_nat (String.length b)) /\
    0 <= r <= 1.
Proof.
  apply (treemap_maps_cell_to_cell sigma2 (2 # 7)).
  - vm_compute. reflexivity.
  - split; vm_compute; discriminate.
Defined.

(** X12.  For a prefix dictionary the order of the scan does not matter:
    any key that is a prefix of the encoded argument is the rule the tree
    map applies. *)
Theorem treemap_applies_any_matching_key (sigma : dict) (x : Q) (k : string) :
  prefix_dictionary sigma = true ->
  In k (keys sigma) ->
  prefix k (to_bin x (max_len sigma)) = true ->
  exists b fa fb r,
    dict_get sigma k = Ok b /\ to_float k = Ok fa /\ to_float b = Ok fb /\
    treemap sigma x = Ok (Some r) /\
    r == fb + (x - fa) *
         pow2 (Z.of_nat (String.length k) - Z.of_nat (String.length b)).
Proof.
  intros Hd Hk Hp.
  destruct (prefix_dictionary_rule sigma x Hd) as [a [b [Hfm [Eb [Ha Hb]]]]].
  assert (E : a = k).
  { unfold prefix_dictionary in Hd. apply andb_true_iff in Hd.
    destruct Hd as [Hc _]. destruct Hfm as [pre [post [Ek [_ Hpa]]]].
    apply (prefix_code_unique (keys sigma) x a k Hc); try assumption.
    rewrite Ek. apply in_or_app. right. now left. }
  subst k.
  destruct (to_float_binary a Ha) as [fa [Efa _]].
  destruct (to_float_binary b Hb) as [fb [Efb _]].
  destruct (treemap_first_match sigma x a b fa fb Hfm Efa Eb Efb)
    as [r' [Er [r [-> Hr]]]].
  now exists b, fa, fb, r.
Qed.

Lemma treemap_applies_any_matching_key_witness :
  exists b fa fb r,
    dict_get sigma2 "01" = Ok b /\ to_float "01" = Ok fa /\
    to_float b = Ok fb /\
    treemap sigma2 (3 # 8) = Ok (Some r) /\
    r == fb + ((3 # 8) - fa) *
         pow2 (Z.of_nat (String.length "01") - Z.of_nat (String.length b)).
Proof.
  apply (treemap_applies_any_matching_key sigma2 (3 # 8) "01").
  - vm_compute. reflexivity.
  - vm_compute. tauto.
  - vm_compute. reflexivity.
Defined.

(** X13.  The conjugation [invq(f(q(x)))] of the tree map of a prefix
    dictionary sends [[0,1]] into [[0,1]] at every depth: no exception
    and no [None] on the way. *)
Theorem conjugate_stays_in_unit_interval (sigma : dict) (m : nat) (x : Q) :
  prefix_dictionary sigma = true -> 0 <= x <= 1 ->
  exists w, conjugate sigma m x = inr (Some w) /\ 0 <= w <= 1.
Proof. apply conjugate_unit_gen. Qed.

Lemma conjugate_stays_in_unit_interval_witness :
  exists w, conjugate sigma1 4 (2 # 5) = inr (Some w) /\ 0 <= w <= 1.
Proof.
  apply (conjugate_stays_in_unit_interval sigma1 4 (2 # 5)).
  - vm_compute. reflexivity.
  - split; vm_compute; discriminate.
Defined.





(** X16.  The first [n] steps settle the result up to [2^-n]: on [[0,1]],
    evaluating [question] any deeper than [n] moves the value by at most
    [2^-n]. *)
Theorem question_depth_stable (x : Q) (n k : nat) :
  0 <= x <= 1 ->
  exists a b, question x (n + k) = Ok a /\ question x n = Ok b /\
              Qabs (a - b) <= pow2 (- Z.of_nat n).
Proof.
  revert x. induction n as [|n IH]; intros x Hx.
  - destruct (question_unit k x Hx) as [a [Ea Ha]].
    exists a, x. cbn [Nat.add]. repeat split; [assumption |].
    apply Qabs_Qle_condition. change (pow2 (- Z.of_nat 0)) with 1. lra.
  - replace (S n + k)%nat with (S (n + k)) by lia.
    destruct (unit_cases x Hx) as [E | [[E Hlo] | Hhi]].
    + rewrite (question_zero x (S (n + k))), (question_zero x (S n))
        by assumption.
      exists x, x. repeat split.
      apply Qabs_Qle_condition. pose proof (pow2_pos (- Z.of_nat (S n))). lra.
    + rewrite (question_lo x (n + k)), (question_lo x n)
        by (assumption || lra).
      destruct (IH _ (question_arg_lo x Hlo)) as [a [b [-> [-> H]]]].
      cbn [bind]. exists (a / 2), (b / 2). repeat split.
      apply Qabs_Qle_condition in H. apply Qabs_Qle_condition.
      rewrite pow2_neg_succ. qlin.
    + rewrite (question_hi x (n + k)), (question_hi x n) by lra.
      destruct (IH _ (question_arg_hi x Hhi)) as [a [b [-> [-> H]]]].
      cbn [bind]. exists ((a + 1) / 2), ((b + 1) / 2). repeat split.
      apply Qabs_Qle_condition in H. apply Qabs_Qle_condition.
      rewrite pow2_neg_succ. qlin.
Qed.

Lemma question_depth_stable_witness :
  exists a b, question (3 # 11) (4 + 3) = Ok a /\ question (3 # 11) 4 = Ok b /\
              Qabs (a - b) <= pow2 (- Z.of_nat 4).
Proof.
  apply (question_depth_stable (3 # 11) 4 3).
  split; vm_compute; discriminate.
Defined.

(** X17.  The symmetry passes to the inverse: on [[0,1]],
    [invquestion (1 - x) n = 1 - invquestion x n] at every depth. *)
Theorem inverse_symmetry (x : Q) (n : nat) :
  0 <= x <= 1 ->
  exists l r, invquestion (1 - x) n = Ok l /\ invquestion x n = Ok r /\
              l == 1 - r.
Proof.
  intros Hx.
  destruct (question_invquestion_gen n x Hx) as [t [z [Et [Ez Hz]]]].
  destruct (invquestion_unit n x Hx) as [t' [Et' Ht]].
  rewrite Et in Et'. injection Et' as <-.
  destruct (question_symm_gen n t (1 - t) Ht (Qeq_refl _))
    as [y [y' [Ey [Ey' Hy]]]].
  rewrite Ez in Ey. injection Ey as <-.
  assert (Ht' : 0 <= 1 - t <= 1) by lra.
  destruct (invquestion_question_gen n (1 - t) Ht')
    as [y'' [w [Ey'' [Ew Hw]]]].
  rewrite Ey' in Ey''. injection Ey'' as <-.
  assert (P : oeq (invquestion (1 - x) n) (invquestion y' n)).
  { apply invquestion_proper. rewrite Hy, Hz. reflexivity. }
  rewrite Ew in P.
  destruct (invquestion (1 - x) n) as [l|e]; simpl in P; [| contradiction].
  exists l, t. split; [reflexivity |]. split; [exact Et |].
  rewrite P, Hw. reflexivity.
Qed.

Lemma inverse_symmetry_witness :
  exists l r, invquestion (1 - (2 # 7)) 5 = Ok l /\
              invquestion (2 # 7) 5 = Ok r /\ l == 1 - r.
Proof.
  apply (inverse_symmetry (2 # 7) 5).
  split; vm_compute; discriminate.
Defined.
